(** * Apple Catcher: the game scene and its React shell

    A shallow embedding of [src/components/AppleCatcherGame.tsx]: the Phaser
    scene [GameScene] (its fields and methods), the part of the Phaser host
    the scene relies on (sprites, the apples group, the arcade-physics
    pause flag, the tween list) and the two commands of the React
    component that reach the scene ([startGame] and [gameData.restart]).

    Numbers.  The values the scene computes itself ([score],
    [appleInterval], velocities, tints and sizes) are integers and are
    kept in [Z]; a JavaScript number holds them exactly below 2^53, far
    beyond any score a game can reach.  Clock values and sprite
    coordinates come from the host and are kept in [Q]. *)

From Stdlib Require Import ZArith QArith Bool List Lia Lqa String.
Import ListNotations.

Local Open Scope Z_scope.

(** ** JavaScript comparison [a > b] on host-provided numbers *)

Definition Qgtb (a b : Q) : bool := negb (Qle_bool a b).

(** ** Phaser.Physics.Arcade.Sprite

    [id] stands for the identity of the JavaScript object: two sprites are
    the same object exactly when their [id]s agree. *)

Module Sprite.

Record t : Type := mk {
  id : nat;
  texture : string;
  x : Q;
  y : Q;
  velocityX : Z;
  velocityY : Z;
  displayWidth : Z;
  displayHeight : Z;
  tint : Z;
  collideWorldBounds : bool;
  immovable : bool
}.

(** [this.physics.add.sprite(x, y, key)]: a body at rest, the 1x1
    placeholder texture, no tint. *)
Definition create (i : nat) (px py : Q) (key : string) : t :=
  mk i key px py 0 0 1 1 0xFFFFFF false false.

Definition setDisplaySize (w h : Z) (s : t) : t :=
  mk (id s) (texture s) (x s) (y s) (velocityX s) (velocityY s)
     w h (tint s) (collideWorldBounds s) (immovable s).

Definition setTint (c : Z) (s : t) : t :=
  mk (id s) (texture s) (x s) (y s) (velocityX s) (velocityY s)
     (displayWidth s) (displayHeight s) c (collideWorldBounds s) (immovable s).

Definition setCollideWorldBounds (b : bool) (s : t) : t :=
  mk (id s) (texture s) (x s) (y s) (velocityX s) (velocityY s)
     (displayWidth s) (displayHeight s) (tint s) b (immovable s).

Definition setImmovable (b : bool) (s : t) : t :=
  mk (id s) (texture s) (x s) (y s) (velocityX s) (velocityY s)
     (displayWidth s) (displayHeight s) (tint s) (collideWorldBounds s) b.

Definition setVelocityX (v : Z) (s : t) : t :=
  mk (id s) (texture s) (x s) (y s) v (velocityY s)
     (displayWidth s) (displayHeight s) (tint s)
     (collideWorldBounds s) (immovable s).

Definition setVelocityY (v : Z) (s : t) : t :=
  mk (id s) (texture s) (x s) (y s) (velocityX s) v
     (displayWidth s) (displayHeight s) (tint s)
     (collideWorldBounds s) (immovable s).

Definition setVelocity (v w : Z) (s : t) : t :=
  setVelocityY w (setVelocityX v s).

Definition setPosition (px py : Q) (s : t) : t :=
  mk (id s) (texture s) px py (velocityX s) (velocityY s)
     (displayWidth s) (displayHeight s) (tint s)
     (collideWorldBounds s) (immovable s).

End Sprite.

(** ** interface GameData

    The record shared by the component and the scene.  Its [restart]
    closure belongs to the component (see [Shell.gameData_restart]); the
    scene never calls it, it only writes the two data fields. *)

Module GameData.

Record t : Type := mk {
  score : Z;
  gameOver : bool
}.

End GameData.

(** ** class GameScene *)

Module GameScene.

Record CursorKeys : Type := mkCursorKeys {
  left_isDown : bool;
  right_isDown : bool
}.

(** The configuration object handed to [this.tweens.add]. *)
Record Tween : Type := mkTween {
  targets : option nat;
  scaleY : Q;
  duration : Z;
  yoyo : bool;
  ease : string
}.

(** The fields of the class, followed by the three pieces of host state
    the methods act on: the pause flag of [this.physics], the tweens
    handed to [this.tweens] and the next fresh object identity. *)
Record t : Type := mk {
  plate : option Sprite.t;
  apples : option (list Sprite.t);
  cursors : option CursorKeys;
  score : Z;
  gameOver : bool;
  gameData : option GameData.t;
  lastAppleTime : Q;
  appleInterval : Z;
  physicsPaused : bool;
  tweens : list Tween;
  nextId : nat
}.

Definition set_plate (v : option Sprite.t) (s : t) : t :=
  mk v (apples s) (cursors s) (score s) (gameOver s) (gameData s)
     (lastAppleTime s) (appleInterval s) (physicsPaused s) (tweens s)
     (nextId s).

Definition set_apples (v : option (list Sprite.t)) (s : t) : t :=
  mk (plate s) v (cursors s) (score s) (gameOver s) (gameData s)
     (lastAppleTime s) (appleInterval s) (physicsPaused s) (tweens s)
     (nextId s).

Definition set_cursors (v : option CursorKeys) (s : t) : t :=
  mk (plate s) (apples s) v (score s) (gameOver s) (gameData s)
     (lastAppleTime s) (appleInterval s) (physicsPaused s) (tweens s)
     (nextId s).

Definition set_score (v : Z) (s : t) : t :=
  mk (plate s) (apples s) (cursors s) v (gameOver s) (gameData s)
     (lastAppleTime s) (appleInterval s) (physicsPaused s) (tweens s)
     (nextId s).

Definition set_gameOver (v : bool) (s : t) : t :=
  mk (plate s) (apples s) (cursors s) (score s) v (gameData s)
     (lastAppleTime s) (appleInterval s) (physicsPaused s) (tweens s)
     (nextId s).

Definition set_gameData (v : option GameData.t) (s : t) : t :=
  mk (plate s) (apples s) (cursors s) (score s) (gameOver s) v
     (lastAppleTime s) (appleInterval s) (physicsPaused s) (tweens s)
     (nextId s).

Definition set_lastAppleTime (v : Q) (s : t) : t :=
  mk (plate s) (apples s) (cursors s) (score s) (gameOver s) (gameData s)
     v (appleInterval s) (physicsPaused s) (tweens s) (nextId s).

Definition set_appleInterval (v : Z) (s : t) : t :=
  mk (plate s) (apples s) (cursors s) (score s) (gameOver s) (gameData s)
     (lastAppleTime s) v (physicsPaused s) (tweens s) (nextId s).

Definition set_physicsPaused (v : bool) (s : t) : t :=
  mk (plate s) (apples s) (cursors s) (score s) (gameOver s) (gameData s)
     (lastAppleTime s) (appleInterval s) v (tweens s) (nextId s).

Definition set_tweens (v : list Tween) (s : t) : t :=
  mk (plate s) (apples s) (cursors s) (score s) (gameOver s) (gameData s)
     (lastAppleTime s) (appleInterval s) (physicsPaused s) v (nextId s).

Definition set_nextId (v : nat) (s : t) : t :=
  mk (plate s) (apples s) (cursors s) (score s) (gameOver s) (gameData s)
     (lastAppleTime s) (appleInterval s) (physicsPaused s) (tweens s) v.

(** A method either runs to its end or stops at a [!]-asserted field that
    is still [undefined]; the assignments made before the throw stay. *)
Inductive Outcome : Type :=
| Done (s : t)
| TypeError (s : t).

Definition state (o : Outcome) : t :=
  match o with Done s => s | TypeError s => s end.

Definition andThen (m k : t -> Outcome) : t -> Outcome :=
  fun s => match m s with
           | Done s' => k s'
           | TypeError s' => TypeError s'
           end.

Notation "m ;; k" := (andThen m k) (at level 61, right associativity).

(** Field initialisers and [constructor()]. *)
Definition new : t :=
  mk None None None 0 false None 0%Q 1500 false [] 0%nat.

Definition init (data : GameData.t) (s : t) : t :=
  let s := set_gameData (Some data) s in
  let s := set_score 0 s in
  let s := set_gameOver false s in
  set_lastAppleTime 0%Q s.

Definition updateGameState (s : t) : t :=
  match gameData s with
  | Some _ => set_gameData (Some (GameData.mk (score s) (gameOver s))) s
  | None => s
  end.

Definition create (s : t) : t :=
  let p := Sprite.create (nextId s) 400%Q 550%Q "plate" in
  let p := Sprite.setDisplaySize 100 20 p in
  let p := Sprite.setTint 0xF4A460 p in
  let p := Sprite.setCollideWorldBounds true p in
  let p := Sprite.setImmovable true p in
  let s := set_nextId (S (nextId s)) (set_plate (Some p) s) in
  let s := set_apples (Some []) s in
  let s := set_cursors (Some (mkCursorKeys false false)) s in
  updateGameState s.

(** [group.add(child)] on an arcade physics group, as made by
    [this.physics.add.group()]: the group hands every child it receives
    to its create callback, which applies the group's defaults to the
    child's body.  Of the fields kept here the defaults are velocity
    (0, 0), no collision with the world bounds and not immovable.  The
    child then joins the end of [children.entries]. *)
Definition groupDefaults (child : Sprite.t) : Sprite.t :=
  Sprite.setImmovable false
    (Sprite.setCollideWorldBounds false (Sprite.setVelocity 0 0 child)).

Definition groupAdd (child : Sprite.t) (l : list Sprite.t) : list Sprite.t :=
  l ++ [groupDefaults child].

(** [x] is the value drawn by [Phaser.Math.Between(50, 750)]. *)
Definition spawnApple (x : Z) (s : t) : Outcome :=
  let apple := Sprite.create (nextId s) (inject_Z x) (-50)%Q "apple" in
  let s := set_nextId (S (nextId s)) s in
  let apple := Sprite.setDisplaySize 30 30 apple in
  let apple := Sprite.setTint 0xFF0000 apple in
  let apple := Sprite.setVelocityY (150 + score s * 2) apple in
  match apples s with
  | Some l => Done (set_apples (Some (groupAdd apple l)) s)
  | None => TypeError s
  end.

Definition endGame (s : t) : t :=
  let s := set_gameOver true s in
  let s := set_physicsPaused true s in
  updateGameState s.

(** [apple.destroy()] takes the sprite out of every group holding it. *)
Definition destroy (apple : Sprite.t) (l : list Sprite.t) : list Sprite.t :=
  filter (fun a => negb (Nat.eqb (Sprite.id a) (Sprite.id apple))) l.

(** The overlap callback.  Its first parameter, the plate, is not used
    by the body (the tween targets [this.plate]) and is left out. *)
Definition catchApple (apple : Sprite.t) (s : t) : t :=
  let s := set_apples (option_map (destroy apple) (apples s)) s in
  let s := set_score (score s + 1) s in
  let s := updateGameState s in
  set_tweens
    (tweens s ++
       [mkTween (option_map Sprite.id (plate s)) 1.2%Q 100 true "Power2"])
    s.

Definition movePlate (s : t) : Outcome :=
  match cursors s with
  | None => TypeError s
  | Some keys =>
      let v := if left_isDown keys then -300
               else if right_isDown keys then 300
               else 0 in
      match plate s with
      | None => TypeError s
      | Some p => Done (set_plate (Some (Sprite.setVelocityX v p)) s)
      end
  end.

Definition spawnIfDue (time : Q) (x : Z) (s : t) : Outcome :=
  if Qgtb (time - lastAppleTime s)%Q (inject_Z (appleInterval s)) then
    match spawnApple x s with
    | TypeError s => TypeError s
    | Done s =>
        let s := set_lastAppleTime time s in
        if appleInterval s >? 500
        then Done (set_appleInterval (appleInterval s - 10) s)
        else Done s
    end
  else Done s.

(** The body of the [forEach] callback. *)
Definition checkApple (s : t) (apple : Sprite.t) : t :=
  if Qgtb (Sprite.y apple) 600%Q then endGame s else s.

Definition checkFallen (s : t) : Outcome :=
  match apples s with
  | None => TypeError s
  | Some entries => Done (fold_left checkApple entries s)
  end.

Definition update (time : Q) (x : Z) (s : t) : Outcome :=
  if gameOver s then Done s
  else (movePlate ;; spawnIfDue time x ;; checkFallen) s.

Definition restart (s : t) : Outcome :=
  let s := set_score 0 s in
  let s := set_gameOver false s in
  let s := set_lastAppleTime 0%Q s in
  let s := set_appleInterval 1500 s in
  match apples s with
  | None => TypeError s
  | Some _ =>
      let s := set_apples (Some []) s in
      match plate s with
      | None => TypeError s
      | Some p =>
          let p := Sprite.setPosition 400%Q 550%Q p in
          let p := Sprite.setVelocity 0 0 p in
          let s := set_plate (Some p) s in
          let s := set_physicsPaused false s in
          Done (updateGameState s)
      end
  end.

End GameScene.

(** ** The Phaser host around the scene

    What the engine does to a running scene, as far as the scene's own
    code depends on it.  Positions are moved by the physics step in any
    way whatsoever (the statements below hold for every motion, hence for
    the engine's).  With zero gravity and overlap-only colliders the step
    leaves velocities alone, but for the plate, which collides with the
    world bounds without bounce: a step in which it runs into a bound
    stops it.  A paused world is not stepped, so it neither moves bodies
    nor runs the overlap collider, while [update] is still called on every
    frame. *)

Module Host.

Import GameScene.

Inductive Event : Type :=
| Frame (time : Q) (x : Z)            (* scene.update(time); x is the random draw *)
| Keys (left right : bool)            (* the arrow keys change state *)
| Physics (move : Sprite.t -> Q * Q) (blocked : bool)
                                      (* the world step moves the bodies;
                                         blocked: the plate hits a bound *)
| Overlap (apple : nat)               (* the collider reports plate/apple overlap *)
| Restart.                            (* the component calls scene.restart() *)

Definition moveSprite (move : Sprite.t -> Q * Q) (a : Sprite.t) : Sprite.t :=
  Sprite.setPosition (fst (move a)) (snd (move a)) a.

(** [this.apples.children.entries], empty while the group is undefined. *)
Definition entries (s : t) : list Sprite.t :=
  match apples s with Some l => l | None => [] end.

Definition stepPlate (move : Sprite.t -> Q * Q) (blocked : bool)
    (p : Sprite.t) : Sprite.t :=
  let p := moveSprite move p in
  if blocked then Sprite.setVelocityX 0 p else p.

Definition hasId (i : nat) (a : Sprite.t) : bool := Nat.eqb (Sprite.id a) i.

Definition fire (e : Event) (s : t) : t :=
  match e with
  | Frame time x => state (update time x s)
  | Keys l r =>
      match cursors s with
      | Some _ => set_cursors (Some (mkCursorKeys l r)) s
      | None => s
      end
  | Physics move blocked =>
      if physicsPaused s then s
      else set_apples (option_map (map (moveSprite move)) (apples s))
             (set_plate (option_map (stepPlate move blocked) (plate s)) s)
  | Overlap i =>
      if physicsPaused s then s
      else match find (hasId i) (entries s) with
           | Some apple => catchApple apple s
           | None => s
           end
  | Restart => state (restart s)
  end.

Definition run (evs : list Event) (s : t) : t :=
  fold_left (fun st e => fire e st) evs s.

(** Scene start: [init(data)], [preload()] (assets only), [create()]. *)
Definition started (data : GameData.t) : t := create (init data new).

(** A session is a stretch of play without a restart. *)
Definition isRestart (e : Event) : bool :=
  match e with Restart => true | _ => false end.

Definition session (evs : list Event) : bool :=
  forallb (fun e => negb (isRestart e)) evs.

(** The spawn test of [update]. *)
Definition due (time : Q) (s : t) : bool :=
  Qgtb (time - lastAppleTime s)%Q (inject_Z (appleInterval s)).

(** Some apple of the list is below the bottom edge. *)
Definition fallen (l : list Sprite.t) : bool :=
  existsb (fun a => Qgtb (Sprite.y a) 600%Q) l.

(** The scene as [forEach] finds it: after the plate and spawn steps. *)
Definition beforeCheck (time : Q) (x : Z) (s : t) : t :=
  state ((movePlate ;; spawnIfDue time x) s).

(** Number of callbacks of the [forEach] that take the scene from
    active to game over. *)
Fixpoint transitions (s : t) (l : list Sprite.t) : nat :=
  match l with
  | [] => 0%nat
  | a :: rest =>
      let s' := checkApple s a in
      ((if negb (gameOver s) && gameOver s' then 1 else 0)
       + transitions s' rest)%nat
  end.

End Host.

(** ** The React component, as far as it commands the scene *)

Module Shell.

(** The [useState] cells, whether [phaserGameRef.current] holds a game,
    and [sceneRef.current]. *)
Record t : Type := mk {
  score : Z;
  gameOver : bool;
  gameStarted : bool;
  phaserGameRef : bool;
  sceneRef : option GameScene.t
}.

Inductive Outcome : Type :=
| Done (sh : t)
| TypeError (sh : t).

Definition initial : t := mk 0 false false false None.

Definition startGame (sh : t) : Outcome :=
  let sh := mk 0 false true (phaserGameRef sh) (sceneRef sh) in
  match phaserGameRef sh, sceneRef sh with
  | true, Some scene =>
      match GameScene.restart scene with
      | GameScene.Done scene' =>
          Done (mk (score sh) (gameOver sh) (gameStarted sh)
                  (phaserGameRef sh) (Some scene'))
      | GameScene.TypeError scene' =>
          TypeError (mk (score sh) (gameOver sh) (gameStarted sh)
                       (phaserGameRef sh) (Some scene'))
      end
  | _, _ => Done sh
  end.

(** [gameData.restart]: the optional call comes first, the setters after. *)
Definition gameData_restart (sh : t) : Outcome :=
  match sceneRef sh with
  | Some scene =>
      match GameScene.restart scene with
      | GameScene.Done scene' =>
          Done (mk 0 false true (phaserGameRef sh) (Some scene'))
      | GameScene.TypeError scene' =>
          TypeError (mk (score sh) (gameOver sh) (gameStarted sh)
                       (phaserGameRef sh) (Some scene'))
      end
  | None => Done (mk 0 false true (phaserGameRef sh) None)
  end.

End Shell.

Import GameScene Host.

(** ** Derived notions used in the statements *)

(** The apple that [spawnApple] leaves in the group in scene [s]. *)
Definition spawned (x : Z) (s : t) : Sprite.t :=
  Sprite.mk (nextId s) "apple" (inject_Z x) (-50)%Q 0 0
            30 30 0xFF0000 false false.

(** The horizontal speed [update] gives the plate. *)
Definition plateSpeed (keys : CursorKeys) : Z :=
  if left_isDown keys then -300 else if right_isDown keys then 300 else 0.

(** The scene when [update] reaches its [forEach], in closed form. *)
Definition afterSpawn (time : Q) (x : Z) (p : Sprite.t) (keys : CursorKeys)
    (s : t) : t :=
  let s1 := set_plate (Some (Sprite.setVelocityX (plateSpeed keys) p)) s in
  if due time s then
    set_appleInterval
      (if appleInterval s >? 500 then appleInterval s - 10
       else appleInterval s)
      (set_lastAppleTime time
         (set_apples (Some (entries s ++ [spawned x s]))
            (set_nextId (S (nextId s)) s1)))
  else s1.

(** The scene after an active frame, in closed form. *)
Definition afterFrame (time : Q) (x : Z) (p : Sprite.t) (keys : CursorKeys)
    (s : t) : t :=
  if fallen (entries s) then endGame (afterSpawn time x p keys s)
  else afterSpawn time x p keys s.

(** The plate as [create] leaves it. *)
Definition plate0 : Sprite.t :=
  Sprite.mk 0 "plate" 400%Q 550%Q 0 0 100 20 0xF4A460 true true.

(** What [restart] does to the plate. *)
Definition resetPlate (p : Sprite.t) : Sprite.t :=
  Sprite.setVelocity 0 0 (Sprite.setPosition 400%Q 550%Q p).

Definition ids (l : list Sprite.t) : list nat := map Sprite.id l.

Record Inv (s : t) : Prop := mkInv {
  inv_plate : exists p, plate s = Some p /\ resetPlate p = plate0;
  inv_apples : exists l, apples s = Some l;
  inv_cursors : exists keys, cursors s = Some keys;
  inv_ids : NoDup (ids (entries s));
  inv_fresh : forall a, In a (entries s) -> (Sprite.id a < nextId s)%nat;
  inv_paused : physicsPaused s = gameOver s;
  inv_interval :
    exists k, 0 <= k <= 100 /\ appleInterval s = 500 + 10 * k;
  inv_score : 0 <= score s;
  inv_gameData : gameData s = Some (GameData.mk (score s) (gameOver s))
}.

(** Sprite [i] has been created, and whenever it is in the group it
    satisfies [P]. *)
Definition tracked (i : nat) (P : Sprite.t -> Prop) (s : t) : Prop :=
  (i < nextId s)%nat /\
  forall b, In b (entries s) -> Sprite.id b = i -> P b.

(** ** Sample scenes *)

(** The shared record as the component first builds it. *)
Definition data0 : GameData.t := GameData.mk 0 false.

(** Every sprite drops far below the bottom edge. *)
Definition drop (a : Sprite.t) : Q * Q := (Sprite.x a, 700%Q).


(** One apple spawned, then missed: a finished game. *)
Definition missed : t :=
  run [Frame 1501%Q 400; Physics drop false; Frame 1600%Q 3] (started data0).

(** Two apples in play, both already below the bottom edge, the game
    still active: the frame that follows has two misses to handle. *)
Definition twoFallen : list Event :=
  [Frame 1501%Q 400; Frame 3000%Q 200; Physics drop false].

(** The first apple of [twoFallen], where the physics step left it. *)
Definition fallenApple : Sprite.t :=
  Sprite.mk 1 "apple" 400%Q 700%Q 0 0 30 30 0xFF0000 false false.

(** The apple of scene [played], before it was caught. *)
Definition firstApple : Sprite.t :=
  Sprite.mk 1 "apple" 400%Q (-50)%Q 0 0 30 30 0xFF0000 false false.

(** ** The rest of the component: state polling and what is rendered *)

Module Component.

(** The callback of [setInterval].  The scene's [gameData] field is the
    component's own [gameData] object once [init] has stored it; until
    then the object still holds [object], the values it was built with. *)
Definition poll (object : GameData.t) (sh : Shell.t) : Shell.t :=
  match Shell.sceneRef sh with
  | Some scene =>
      let gd := match GameScene.gameData scene with
                | Some gd => gd
                | None => object
                end in
      Shell.mk (GameData.score gd) (GameData.gameOver gd)
               (Shell.gameStarted sh) (Shell.phaserGameRef sh)
               (Shell.sceneRef sh)
  | None => sh
  end.

(** What the JSX puts on screen: the start overlay, the game UI with the
    score it shows, the game-over modal with the count and the noun of
    "You caught N apple(s)". *)
Record View : Type := mkView {
  startScreen : bool;
  gameUI : option Z;
  gameOverModal : option (Z * string)
}.

Definition render (sh : Shell.t) : View :=
  mkView
    (negb (Shell.gameStarted sh) && negb (Shell.gameOver sh))
    (if Shell.gameStarted sh then Some (Shell.score sh) else None)
    (if Shell.gameOver sh
     then Some (Shell.score sh,
                String.append "apple"
                  (if negb (Shell.score sh =? 1) then "s" else ""))
     else None).

(** The shell a command leaves behind, whether it completed or threw. *)
Definition shell (o : Shell.Outcome) : Shell.t :=
  match o with Shell.Done sh | Shell.TypeError sh => sh end.

Definition shown {A : Type} (o : option A) : bool :=
  match o with Some _ => true | None => false end.

(** The body of [useEffect].  [gameRef.current] is the game's [div],
    which exists exactly when the game UI is rendered.  [getScene] is
    asked for the scene right after [new Phaser.Game], before the scene
    manager has created any scene, and answers null: that is what
    [sceneRef.current] is given. *)
Definition effect (sh : Shell.t) : Shell.t :=
  if shown (gameUI (render sh)) && negb (Shell.phaserGameRef sh)
     && Shell.gameStarted sh
  then Shell.mk (Shell.score sh) (Shell.gameOver sh) (Shell.gameStarted sh)
                true None
  else sh.

(** The function the effect returns: the game is destroyed and its
    reference cleared; [sceneRef] is left alone. *)
Definition cleanup (sh : Shell.t) : Shell.t :=
  Shell.mk (Shell.score sh) (Shell.gameOver sh) (Shell.gameStarted sh)
           false (Shell.sceneRef sh).

(** What can happen to the component.  A button can be clicked only
    while it is rendered; the interval ticks only between the effect that
    sets it and the cleanup that clears it, which is when
    [phaserGameRef.current] is set. *)
Inductive UiEvent : Type :=
| ClickStart
| ClickPlayAgain
| RunEffect
| Tick (object : GameData.t)
| Cleanup.

Definition react (e : UiEvent) (sh : Shell.t) : Shell.t :=
  match e with
  | ClickStart =>
      if startScreen (render sh) then shell (Shell.startGame sh) else sh
  | ClickPlayAgain =>
      if shown (gameOverModal (render sh))
      then shell (Shell.gameData_restart sh) else sh
  | RunEffect => effect sh
  | Tick object => if Shell.phaserGameRef sh then poll object sh else sh
  | Cleanup => cleanup sh
  end.

Definition runUi (evs : list UiEvent) (sh : Shell.t) : Shell.t :=
  fold_left (fun st e => react e st) evs sh.

End Component.

(** * Properties *)

(** Reduce field accesses and field updates on an explicit scene, and
    nothing else (arithmetic stays as written). *)
Ltac scene :=
  cbn [plate apples cursors score gameOver gameData lastAppleTime
       appleInterval physicsPaused tweens nextId
       set_plate set_apples set_cursors set_score set_gameOver set_gameData
       set_lastAppleTime set_appleInterval set_physicsPaused set_tweens
       set_nextId updateGameState endGame catchApple entries state
       option_map] in *.

(** ** Elementary facts *)

Lemma Qgtb_true (a b : Q) : Qgtb a b = true <-> (b < a)%Q.
Proof.
  unfold Qgtb. rewrite negb_true_iff. split; intro H.
  - apply Qnot_le_lt. intro Hle. apply Qle_bool_iff in Hle. congruence.
  - destruct (Qle_bool a b) eqn:E; [|reflexivity].
    apply Qle_bool_iff in E. exfalso. revert E. apply Qlt_not_le. exact H.
Qed.

Lemma fallen_true (l : list Sprite.t) :
  fallen l = true <-> exists a, In a l /\ (600 < Sprite.y a)%Q.
Proof.
  unfold fallen. rewrite existsb_exists.
  split; intros [a [Hin Ha]]; exists a; split; trivial;
    now apply Qgtb_true.
Qed.

Lemma fallen_app (l k : list Sprite.t) : fallen (l ++ k) = fallen l || fallen k.
Proof. apply existsb_app. Qed.

Lemma endGame_idem (s : t) : endGame (endGame s) = endGame s.
Proof. destruct s as [? ? ? ? ? [gd|] ? ? ? ? ?]; reflexivity. Qed.

Lemma endGame_gameOver (s : t) : gameOver (endGame s) = true.
Proof. destruct s as [? ? ? ? ? [gd|] ? ? ? ? ?]; reflexivity. Qed.

Lemma checkApple_over (s : t) (a : Sprite.t) :
  gameOver s = true -> gameOver (checkApple s a) = true.
Proof.
  intro H. unfold checkApple. destruct (Qgtb _ _); trivial.
  apply endGame_gameOver.
Qed.

(** The whole [forEach] amounts to one [endGame] if some apple is below
    the edge, and to nothing otherwise. *)
Lemma forEach_checkApple (l : list Sprite.t) (s : t) :
  fold_left checkApple l s = if fallen l then endGame s else s.
Proof.
  revert s. induction l as [|a l IH]; intro s; simpl; [reflexivity|].
  rewrite IH. unfold checkApple.
  destruct (Qgtb (Sprite.y a) 600) eqn:Ea; simpl.
  - rewrite endGame_idem. destruct (fallen l); reflexivity.
  - reflexivity.
Qed.

Lemma transitions_over (l : list Sprite.t) (s : t) :
  gameOver s = true -> transitions s l = 0%nat.
Proof.
  revert s. induction l as [|a l IH]; intros s H; simpl; [reflexivity|].
  rewrite H. simpl. apply IH. now apply checkApple_over.
Qed.

Lemma transitions_le_1 (l : list Sprite.t) (s : t) :
  (transitions s l <= 1)%nat.
Proof.
  revert s. induction l as [|a l IH]; intro s; simpl; [lia|].
  destruct (gameOver s) eqn:Es; simpl.
  - rewrite transitions_over; [lia|]. now apply checkApple_over.
  - destruct (gameOver (checkApple s a)) eqn:Ec.
    + rewrite transitions_over; [lia|assumption].
    + apply IH.
Qed.

Lemma spawnApple_spec (x : Z) (s : t) (l : list Sprite.t) :
  apples s = Some l ->
  spawnApple x s =
  Done (set_apples (Some (l ++ [spawned x s])) (set_nextId (S (nextId s)) s)).
Proof. intro H. unfold spawnApple, groupAdd. simpl. rewrite H. reflexivity. Qed.

Lemma update_active (time : Q) (x : Z) (s : t) (p : Sprite.t)
    (l : list Sprite.t) (keys : CursorKeys) :
  plate s = Some p -> apples s = Some l -> cursors s = Some keys ->
  gameOver s = false ->
  update time x s = Done (afterFrame time x p keys s).
Proof.
  destruct s as [pl ap cu sc go gd la ai pp tw ni]; simpl.
  intros -> -> -> ->.
  unfold update, andThen, movePlate, spawnIfDue, afterFrame, afterSpawn,
    due, entries, checkFallen; simpl.
  fold (plateSpeed keys).
  destruct (Qgtb (time - la) (inject_Z ai)) eqn:Ed.
  - unfold spawnApple, groupAdd, groupDefaults; simpl.
    destruct (ai >? 500) eqn:Ei; simpl;
      rewrite forEach_checkApple, fallen_app; simpl;
      rewrite orb_false_r; reflexivity.
  - simpl. rewrite forEach_checkApple. reflexivity.
Qed.

(** ** The invariant of a started scene *)

Lemma Inv_started (data : GameData.t) : Inv (started data).
Proof.
  constructor; simpl.
  - eexists; split; reflexivity.
  - eexists; reflexivity.
  - eexists; reflexivity.
  - constructor.
  - intros a [].
  - reflexivity.
  - exists 100. split; [lia|reflexivity].
  - lia.
  - reflexivity.
Qed.

Lemma ids_destroy_subset (a : Sprite.t) (l : list Sprite.t) (b : Sprite.t) :
  In b (destroy a l) -> In b l /\ Sprite.id b <> Sprite.id a.
Proof.
  unfold destroy. rewrite filter_In. intros [Hin Hne]. split; trivial.
  apply negb_true_iff, Nat.eqb_neq in Hne. exact Hne.
Qed.

Lemma NoDup_ids_destroy (a : Sprite.t) (l : list Sprite.t) :
  NoDup (ids l) -> NoDup (ids (destroy a l)).
Proof.
  unfold ids. induction l as [|b l IH]; simpl; intro H; [constructor|].
  inversion H as [|? ? Hnotin Hnd]; subst.
  destruct (negb (Sprite.id b =? Sprite.id a)%nat); simpl; auto.
  constructor; auto.
  intro Hin. apply Hnotin. apply in_map_iff in Hin.
  destruct Hin as [c [Hc Hin]]. apply ids_destroy_subset in Hin.
  apply in_map_iff. exists c. tauto.
Qed.

Lemma ids_moveSprite (move : Sprite.t -> Q * Q) (l : list Sprite.t) :
  ids (map (moveSprite move) l) = ids l.
Proof. unfold ids. rewrite map_map. reflexivity. Qed.

Lemma NoDup_ids_spawn (l : list Sprite.t) (a : Sprite.t) (n : nat) :
  NoDup (ids l) -> (forall b, In b l -> (Sprite.id b < n)%nat) ->
  Sprite.id a = n -> NoDup (ids (l ++ [a])).
Proof.
  intros Hnd Hlt Ha. unfold ids in *. rewrite map_app. simpl.
  apply NoDup_app; trivial.
  - constructor; [intros []|constructor].
  - intros i Hi [Hi'|[]]. apply in_map_iff in Hi.
    destruct Hi as [b [Hb Hin]]. apply Hlt in Hin. lia.
Qed.

Lemma Inv_endGame (s : t) : Inv s -> Inv (endGame s).
Proof.
  intros [Hp Ha Hc Hi Hf Hpa Hint Hs Hg].
  destruct s as [pl ap cu sc go gd la ai pp tw ni]; scene.
  subst gd. constructor; scene; auto.
Qed.

Lemma Inv_afterFrame (time : Q) (x : Z) (s : t) (p : Sprite.t)
    (keys : CursorKeys) :
  Inv s -> plate s = Some p -> gameOver s = false ->
  Inv (afterFrame time x p keys s).
Proof.
  intros HI Hpl Hgo. unfold afterFrame.
  assert (H2 : Inv (afterSpawn time x p keys s)).
  { unfold afterSpawn. destruct HI as [Hp Ha Hc Hi Hf Hpa Hint Hs Hg].
    destruct s as [pl ap cu sc go gd la ai pp tw ni]; scene.
    subst pl go. destruct Hp as [p' [Hp' Hreset]]. injection Hp' as <-.
    destruct Ha as [l ->]. scene.
    destruct (due time _) eqn:Ed.
    - constructor; scene; eauto.
      + apply NoDup_ids_spawn with (n := ni); auto.
      + intros a Hin. apply in_app_or in Hin.
        destruct Hin as [Hin|[<-|[]]]; [apply Hf in Hin; lia|simpl; lia].
      + destruct Hint as [k [Hk ->]].
        destruct (500 + 10 * k >? 500) eqn:E.
        * exists (k - 1). apply Z.gtb_lt in E. lia.
        * exists k. lia.
    - constructor; scene; eauto. }
  destruct (fallen (entries s)); [apply Inv_endGame|]; exact H2.
Qed.

Lemma Inv_restart (s : t) :
  Inv s -> exists s', restart s = Done s' /\ Inv s'.
Proof.
  intros [Hp Ha Hc Hi Hf Hpa Hint Hs Hg].
  destruct s as [pl ap cu sc go gd la ai pp tw ni]; scene.
  destruct Hp as [p [-> Hreset]]. destruct Ha as [l ->]. subst gd.
  eexists. split; [reflexivity|].
  constructor; scene; eauto.
  - constructor.
  - intros a [].
  - exists 100. split; [lia|reflexivity].
  - lia.
Qed.

Lemma Inv_catchApple (a : Sprite.t) (s : t) : Inv s -> Inv (catchApple a s).
Proof.
  intros [Hp Ha Hc Hi Hf Hpa Hint Hs Hg].
  destruct s as [pl ap cu sc go gd la ai pp tw ni]; scene.
  destruct Ha as [l ->]. subst gd. scene.
  constructor; scene; eauto.
  - now apply NoDup_ids_destroy.
  - intros b Hb. apply ids_destroy_subset in Hb. apply Hf. tauto.
  - lia.
Qed.

Lemma Inv_fire (e : Event) (s : t) : Inv s -> Inv (fire e s).
Proof.
  intro HI. destruct e as [time x|l r|move|i|]; simpl.
  - destruct (gameOver s) eqn:Hgo.
    + unfold update. rewrite Hgo. exact HI.
    + destruct (inv_plate s HI) as [p [Hp _]].
      destruct (inv_apples s HI) as [l Hl].
      destruct (inv_cursors s HI) as [keys Hk].
      rewrite (update_active time x s p l keys); trivial.
      now apply Inv_afterFrame.
  - destruct (inv_cursors s HI) as [keys Hk]. rewrite Hk.
    destruct HI as [Hp Ha Hc Hi Hf Hpa Hint Hs Hg].
    destruct s; scene. constructor; scene; eauto.
  - destruct (physicsPaused s) eqn:Hpp; trivial.
    destruct HI as [Hp Ha Hc Hi Hf Hpa Hint Hs Hg].
    destruct s as [pl ap cu sc go gd la ai pp tw ni]; scene.
    destruct Hp as [p [-> Hreset]]. destruct Ha as [l' ->]. scene.
    unfold stepPlate.
    destruct blocked; (constructor; scene; eauto;
      [now rewrite ids_moveSprite|]);
      intros a Ha; apply in_map_iff in Ha; destruct Ha as [b [<- Hb]];
      simpl; now apply Hf.
  - destruct (physicsPaused s); trivial.
    destruct (find (hasId i) (entries s)); trivial.
    now apply Inv_catchApple.
  - destruct (Inv_restart s HI) as [s' [-> HI']]. exact HI'.
Qed.

Lemma Inv_run (evs : list Event) (s : t) : Inv s -> Inv (run evs s).
Proof.
  revert s. induction evs as [|e evs IH]; intros s HI; simpl; trivial.
  apply IH. now apply Inv_fire.
Qed.

Lemma Inv_reachable (data : GameData.t) (evs : list Event) :
  Inv (run evs (started data)).
Proof. apply Inv_run, Inv_started. Qed.

(** ** What each event does to a started scene *)

Lemma frame_over (time : Q) (x : Z) (s : t) :
  gameOver s = true -> fire (Frame time x) s = s.
Proof. intro H. simpl. unfold update. rewrite H. reflexivity. Qed.

Lemma frame_active_closed (time : Q) (x : Z) (s : t) :
  Inv s -> gameOver s = false ->
  exists p keys,
    plate s = Some p /\ cursors s = Some keys /\
    update time x s = Done (afterFrame time x p keys s) /\
    beforeCheck time x s = afterSpawn time x p keys s.
Proof.
  intros HI Hgo.
  destruct (inv_plate s HI) as [p [Hp _]].
  destruct (inv_apples s HI) as [l Hl].
  destruct (inv_cursors s HI) as [keys Hk].
  exists p, keys. repeat split; trivial.
  - now apply update_active with (l := l).
  - destruct s as [pl ap cu sc go gd la ai pp tw ni]; scene. subst.
    unfold beforeCheck, andThen, movePlate, spawnIfDue, afterSpawn, due.
    scene. fold (plateSpeed keys).
    destruct (Qgtb (time - la) (inject_Z ai)); [|reflexivity].
    unfold spawnApple, groupAdd, groupDefaults; scene.
    destruct (ai >? 500); reflexivity.
Qed.

Lemma frame_active (time : Q) (x : Z) (s : t) :
  Inv s -> gameOver s = false ->
  let s' := fire (Frame time x) s in
  score s' = score s /\
  appleInterval s' =
    (if due time s && (appleInterval s >? 500) then appleInterval s - 10
     else appleInterval s) /\
  entries s' =
    (if due time s then entries s ++ [spawned x s] else entries s) /\
  nextId s' = (if due time s then S (nextId s) else nextId s) /\
  lastAppleTime s' = (if due time s then time else lastAppleTime s) /\
  gameOver s' = fallen (entries s).
Proof.
  intros HI Hgo.
  destruct (frame_active_closed time x s HI Hgo)
    as [p [keys [Hp [Hk [Hu _]]]]].
  cbn [fire]. rewrite Hu. unfold afterFrame, afterSpawn.
  destruct s as [pl ap cu sc go [gd|] la ai pp tw ni]; scene; subst;
    destruct (due time _); destruct (fallen _); destruct (ai >? 500);
    scene; repeat split; reflexivity.
Qed.

Lemma restart_created (s : t) (p : Sprite.t) (l : list Sprite.t) :
  plate s = Some p -> apples s = Some l ->
  restart s =
  Done (mk (Some (resetPlate p)) (Some []) (cursors s) 0 false
          (match gameData s with
           | Some _ => Some (GameData.mk 0 false)
           | None => None
           end)
          0%Q 1500 false (tweens s) (nextId s)).
Proof.
  destruct s as [pl ap cu sc go [gd|] la ai pp tw ni]; scene;
    intros -> ->; reflexivity.
Qed.

(** On a started scene [restart] always completes, with this result. *)
Lemma restart_started (s : t) :
  Inv s ->
  restart s =
  Done (mk (Some plate0) (Some []) (cursors s) 0 false
          (Some (GameData.mk 0 false)) 0%Q 1500 false (tweens s) (nextId s)).
Proof.
  intros [[p [Hp Hreset]] [l Hl] _ _ _ _ _ _ Hg].
  rewrite (restart_created s p l Hp Hl), Hg, Hreset. reflexivity.
Qed.

Lemma catchApple_fields (a : Sprite.t) (s : t) :
  score (catchApple a s) = score s + 1 /\
  apples (catchApple a s) = option_map (destroy a) (apples s) /\
  entries (catchApple a s) = destroy a (entries s) /\
  nextId (catchApple a s) = nextId s /\
  gameOver (catchApple a s) = gameOver s /\
  appleInterval (catchApple a s) = appleInterval s /\
  lastAppleTime (catchApple a s) = lastAppleTime s /\
  plate (catchApple a s) = plate s /\
  cursors (catchApple a s) = cursors s /\
  physicsPaused (catchApple a s) = physicsPaused s.
Proof.
  destruct s as [pl [l|] cu sc go [gd|] la ai pp tw ni];
    repeat split; reflexivity.
Qed.

Lemma find_by_id (l : list Sprite.t) (a : Sprite.t) :
  NoDup (ids l) -> In a l -> find (hasId (Sprite.id a)) l = Some a.
Proof.
  unfold ids, hasId. induction l as [|b l IH]; simpl; intros Hnd Hin; [easy|].
  inversion Hnd as [|? ? Hnotin Hnd']; subst.
  destruct (Nat.eqb_spec (Sprite.id b) (Sprite.id a)) as [E|E].
  - destruct Hin as [->|Hin]; [reflexivity|].
    exfalso. apply Hnotin. rewrite E. now apply in_map.
  - destruct Hin as [->|Hin]; [congruence|]. now apply IH.
Qed.

Lemma destroy_absent (l : list Sprite.t) (a : Sprite.t) :
  ~ In (Sprite.id a) (ids l) -> destroy a l = l.
Proof.
  unfold ids, destroy. induction l as [|b l IH]; simpl; intro H; [easy|].
  destruct (Nat.eqb_spec (Sprite.id b) (Sprite.id a)) as [E|E]; simpl.
  - exfalso. apply H. now left.
  - f_equal. apply IH. intro Hin. apply H. now right.
Qed.

Lemma destroy_length (l : list Sprite.t) (a : Sprite.t) :
  NoDup (ids l) -> In a l -> S (List.length (destroy a l)) = List.length l.
Proof.
  induction l as [|b l IH]; simpl; intros Hnd Hin; [easy|].
  inversion Hnd as [|? ? Hnotin Hnd']; subst.
  destruct (Nat.eqb_spec (Sprite.id b) (Sprite.id a)) as [E|E]; simpl.
  - fold (destroy a l). rewrite destroy_absent; [reflexivity|].
    now rewrite <- E.
  - fold (destroy a l). f_equal. destruct Hin as [->|Hin]; [congruence|].
    now apply IH.
Qed.

Section Tracked.

Variable i : nat.
Variable P : Sprite.t -> Prop.
Hypothesis P_moved : forall move b, P b -> P (moveSprite move b).

Lemma tracked_fire (e : Event) (s : t) :
  Inv s -> tracked i P s -> tracked i P (fire e s).
Proof.
  intros HI [Hlt HP]. destruct e as [time x|l r|move blocked|j|].
  - destruct (gameOver s) eqn:Hgo.
    + rewrite frame_over by assumption. now split.
    + destruct (frame_active time x s HI Hgo)
        as [_ [_ [He [Hn _]]]].
      split.
      * rewrite Hn. destruct (due time s); lia.
      * rewrite He. intros b Hb Hid. destruct (due time s); auto.
        apply in_app_or in Hb. destruct Hb as [Hb|[<-|[]]]; auto.
        simpl in Hid. lia.
  - simpl. destruct (cursors s); [|now split].
    destruct s; split; scene; auto.
  - simpl. destruct (physicsPaused s); [now split|].
    destruct (inv_apples s HI) as [l Hl].
    destruct s as [pl ap cu sc go gd la ai pp tw ni]; scene. subst ap.
    split; scene; trivial.
    intros b Hb Hid. apply in_map_iff in Hb. destruct Hb as [a [<- Ha]].
    apply P_moved. apply HP; trivial.
  - simpl. destruct (physicsPaused s); [now split|].
    destruct (find (hasId j) (entries s)) as [a|]; [|now split].
    destruct (catchApple_fields a s) as [_ [_ [He [Hn _]]]].
    split; [now rewrite Hn|]. rewrite He.
    intros b Hb. apply ids_destroy_subset in Hb. apply HP. tauto.
  - simpl. destruct (inv_plate s HI) as [p [Hp _]].
    destruct (inv_apples s HI) as [l Hl].
    rewrite (restart_created s p l Hp Hl).
    split; scene; trivial. intros b [].
Qed.

Lemma tracked_run (evs : list Event) (s : t) :
  Inv s -> tracked i P s -> tracked i P (run evs s).
Proof.
  revert s. induction evs as [|e evs IH]; intros s HI HT; simpl; trivial.
  apply IH; [now apply Inv_fire|now apply tracked_fire].
Qed.

End Tracked.

(** ** The claims *)

(** C8. Whenever [gameOver] is true a frame update returns at once and
    leaves the whole scene as it was: nothing is spawned, and score,
    [appleInterval], [lastAppleTime] and the apples stay. *)
Theorem update_frozen_when_over (s : t) (time : Q) (x : Z) :
  gameOver s = true ->
  update time x s = Done s /\ fire (Frame time x) s = s.
Proof.
  intro H. split; [|now apply frame_over].
  unfold update. rewrite H. reflexivity.
Qed.

Lemma update_frozen_when_over_witness :
  gameOver missed = true /\
  update 5000%Q 7 missed = Done missed /\
  fire (Frame 5000%Q 7) missed = missed.
Proof.
  split; [reflexivity|].
  apply (update_frozen_when_over missed 5000%Q 7). reflexivity.
Defined.

(** C10. For an apple of the group of a reachable scene the catch
    handler adds 1 to the score and takes exactly that apple out of the
    group: it is no longer there, every other apple still is, and the
    group is one shorter.  [gameOver], [appleInterval], [lastAppleTime]
    and the plate (position and velocity included) are left as they were.
    Besides score and apples the handler touches only the shared snapshot,
    which it re-syncs, and the tween list, to which it appends the
    cosmetic scale tween: putting those four fields back gives the scene
    it started from. *)
Theorem catchApple_changes_only_score_and_apples (data : GameData.t)
    (evs : list Event) (a : Sprite.t) :
  let s := run evs (started data) in
  In a (entries s) ->
  let s' := catchApple a s in
  score s' = score s + 1 /\
  ~ In a (entries s') /\
  (forall b, In b (entries s') <->
             In b (entries s) /\ Sprite.id b <> Sprite.id a) /\
  S (List.length (entries s')) = List.length (entries s) /\
  gameOver s' = gameOver s /\
  appleInterval s' = appleInterval s /\
  lastAppleTime s' = lastAppleTime s /\
  plate s' = plate s /\
  tweens s' =
    tweens s ++
      [mkTween (option_map Sprite.id (plate s)) 1.2%Q 100 true "Power2"] /\
  set_gameData (gameData s)
    (set_tweens (tweens s) (set_score (score s) (set_apples (apples s) s')))
  = s.
Proof.
  intros s Hin s'. pose proof (Inv_reachable data evs) as HI. fold s in HI.
  clearbody s. subst s'.
  destruct (catchApple_fields a s)
    as (Hsc & _ & He & _ & Hgo & Hai & Hla & Hpl & _).
  assert (Hmem : forall b, In b (entries (catchApple a s)) <->
                           In b (entries s) /\ Sprite.id b <> Sprite.id a).
  { intro b. rewrite He. split.
    - apply ids_destroy_subset.
    - intros [Hb Hne]. unfold destroy. apply filter_In. split; trivial.
      now apply negb_true_iff, Nat.eqb_neq. }
  split; [exact Hsc|]. split; [intro H; apply Hmem in H; tauto|].
  split; [exact Hmem|].
  split; [rewrite He; apply destroy_length;
          [apply (inv_ids s HI)|exact Hin]|].
  split; [exact Hgo|]. split; [exact Hai|]. split; [exact Hla|].
  split; [exact Hpl|].
  destruct s as [pl [l|] cu sc go [gd|] la ai pp tw ni];
    split; reflexivity.
Qed.

Lemma catchApple_changes_only_score_and_apples_witness :
  let s := run [Frame 1501%Q 400; Frame 3000%Q 200] (started data0) in
  In firstApple (entries s) /\
  let s' := catchApple firstApple s in
  score s' = score s + 1 /\ ~ In firstApple (entries s') /\
  S (List.length (entries s')) = List.length (entries s).
Proof.
  cbv zeta.
  assert (Hin : In firstApple
                   (entries (run [Frame 1501%Q 400; Frame 3000%Q 200]
                               (started data0)))).
  { apply (nth_error_In _ 0). exact (eq_refl (Some firstApple)). }
  split; [exact Hin|].
  destruct (catchApple_changes_only_score_and_apples data0
              [Frame 1501%Q 400; Frame 3000%Q 200] firstApple Hin)
    as (Hsc & Hout & _ & Hlen & _).
  split; [exact Hsc|]. split; [exact Hout|exact Hlen].
Defined.

(** C3. After [restart()] from any reachable scene the state is the one
    right after start: score 0, not over, no apples, interval 1500,
    [lastAppleTime] 0, plate at (400, 550) at rest.  The scene differs
    from the freshly started one only in the host's bookkeeping (key
    state, tweens handed over so far, object identities used so far). *)
Theorem restart_resets_to_start (data : GameData.t) (evs : list Event) :
  let s := run evs (started data) in
  exists s' p,
    restart s = Done s' /\
    score s' = 0 /\ gameOver s' = false /\ apples s' = Some [] /\
    appleInterval s' = 1500 /\ lastAppleTime s' = 0%Q /\
    plate s' = Some p /\
    Sprite.x p = 400%Q /\ Sprite.y p = 550%Q /\
    Sprite.velocityX p = 0 /\ Sprite.velocityY p = 0 /\
    s' = set_cursors (cursors s)
           (set_tweens (tweens s) (set_nextId (nextId s) (started data))).
Proof.
  intro s. pose proof (Inv_reachable data evs) as HI. fold s in HI.
  clearbody s.
  exists (state (restart s)), plate0.
  rewrite (restart_started s HI).
  repeat split; reflexivity.
Qed.

(** C9. [restart()] puts [lastAppleTime] back to 0 but the clock handed to
    [update] runs on, so on the first frame after a restart, at any clock
    value above 1500, the spawn test holds and an apple is spawned at
    once. *)
Theorem restart_then_spawn_at_once (data : GameData.t) (evs : list Event)
    (time : Q) (x : Z) :
  (1500 < time)%Q ->
  let s := run evs (started data) in
  exists s1 s2,
    restart s = Done s1 /\
    lastAppleTime s1 = 0%Q /\ gameOver s1 = false /\
    due time s1 = true /\
    update time x s1 = Done s2 /\
    apples s2 = Some [spawned x s1] /\
    lastAppleTime s2 = time /\ appleInterval s2 = 1490.
Proof.
  intros Ht s. pose proof (Inv_reachable data evs) as HI. fold s in HI.
  clearbody s.
  pose proof (restart_started s HI) as Hr.
  destruct (inv_cursors s HI) as [keys Hk]. rewrite Hk in Hr.
  match type of Hr with _ = Done ?r => set (s1 := r) in * end.
  assert (Hdue : due time s1 = true).
  { unfold due. apply Qgtb_true. subst s1. scene.
    unfold Qminus. setoid_replace (time + - 0)%Q with time by ring.
    exact Ht. }
  exists s1, (afterFrame time x plate0 keys s1).
  rewrite (update_active time x s1 plate0 [] keys) by reflexivity.
  unfold afterFrame, afterSpawn. rewrite Hdue.
  repeat split; first [exact Hr | exact Hdue | reflexivity].
Qed.

Lemma restart_then_spawn_at_once_witness :
  (1500 < 1600)%Q /\
  exists s1 s2,
    restart missed = Done s1 /\
    lastAppleTime s1 = 0%Q /\ gameOver s1 = false /\
    due 1600%Q s1 = true /\
    update 1600%Q 123 s1 = Done s2 /\
    apples s2 = Some [spawned 123 s1] /\
    lastAppleTime s2 = 1600%Q /\ appleInterval s2 = 1490.
Proof.
  split; [reflexivity|].
  apply (restart_then_spawn_at_once data0
           [Frame 1501%Q 400; Physics drop false; Frame 1600%Q 3] 1600%Q 123).
  reflexivity.
Defined.

Lemma interval_fire (e : Event) (s : t) :
  Inv s ->
  appleInterval (fire e s) =
  match e with
  | Frame time _ =>
      if negb (gameOver s) && due time s && (appleInterval s >? 500)
      then appleInterval s - 10
      else appleInterval s
  | Restart => 1500
  | _ => appleInterval s
  end.
Proof.
  intro HI. destruct e as [time x|l r|move blocked|j|].
  - destruct (gameOver s) eqn:Hgo.
    + now rewrite frame_over.
    + now destruct (frame_active time x s HI Hgo) as [_ [Hi _]].
  - simpl. destruct (cursors s); reflexivity.
  - simpl. destruct (physicsPaused s); reflexivity.
  - simpl. destruct (physicsPaused s); trivial.
    destruct (find (hasId j) (entries s)) as [a|]; trivial.
    apply catchApple_fields.
  - simpl. destruct (inv_plate s HI) as [p [Hp _]].
    destruct (inv_apples s HI) as [l Hl].
    rewrite (restart_created s p l Hp Hl). reflexivity.
Qed.

Lemma interval_session (evs : list Event) (s : t) :
  Inv s -> session evs = true ->
  appleInterval (run evs s) <= appleInterval s.
Proof.
  revert s. induction evs as [|e evs IH]; intros s HI Hs; simpl; [lia|].
  simpl in Hs. apply andb_true_iff in Hs. destruct Hs as [He Hs].
  etransitivity; [apply IH; [now apply Inv_fire|exact Hs]|].
  rewrite interval_fire by exact HI.
  destruct e; try discriminate; try lia.
  destruct (negb (gameOver s) && due time s && (appleInterval s >? 500)); lia.
Qed.

(** C1. Within a session (a run of events without a restart, from any
    reachable scene) [appleInterval] never goes below 500 and never
    increases.  Event by event: a frame takes exactly 10 off when the game
    is active, an apple is due and the interval is still above 500, and
    leaves it alone otherwise; key, physics and catch events leave it
    alone; [restart()] sets it to 1500, which is also its largest value. *)
Theorem appleInterval_floor_and_decay (data : GameData.t)
    (evs evs' : list Event) :
  session evs' = true ->
  let s := run evs (started data) in
  let s' := run evs' s in
  500 <= appleInterval s' /\
  appleInterval s' <= appleInterval s /\
  appleInterval s <= 1500 /\
  forall e,
    appleInterval (fire e s) =
    match e with
    | Frame time _ =>
        if negb (gameOver s) && due time s && (appleInterval s >? 500)
        then appleInterval s - 10
        else appleInterval s
    | Restart => 1500
    | _ => appleInterval s
    end.
Proof.
  intros Hs s s'.
  pose proof (Inv_reachable data evs) as HI. fold s in HI.
  pose proof (Inv_run evs' s HI) as HI'. fold s' in HI'.
  destruct (inv_interval s HI) as [k [Hk Hai]].
  destruct (inv_interval s' HI') as [k' [Hk' Hai']].
  repeat split; try lia.
  - now apply interval_session.
  - intro e. now apply interval_fire.
Qed.

Lemma appleInterval_floor_and_decay_witness :
  session [Frame 3100%Q 200; Keys true false; Frame 3200%Q 5] = true /\
  let s := run [Frame 1501%Q 400; Overlap 1] (started data0) in
  let s' := run [Frame 3100%Q 200; Keys true false; Frame 3200%Q 5] s in
  500 <= appleInterval s' /\
  appleInterval s' <= appleInterval s /\
  appleInterval s <= 1500 /\
  appleInterval s = 1490 /\ appleInterval s' = 1480.
Proof.
  split; [reflexivity|].
  pose proof (appleInterval_floor_and_decay data0
                [Frame 1501%Q 400; Overlap 1]
                [Frame 3100%Q 200; Keys true false; Frame 3200%Q 5]
                eq_refl) as H.
  cbv zeta in *. destruct H as [H1 [H2 [H3 _]]].
  repeat split; trivial.
Defined.

Lemma score_fire (e : Event) (s : t) :
  Inv s -> isRestart e = false ->
  score s <= score (fire e s) <= score s + 1 /\
  (gameOver s = true ->
   score (fire e s) = score s /\ gameOver (fire e s) = true).
Proof.
  intros HI He. destruct e as [time x|l r|move blocked|j|]; try discriminate.
  - destruct (gameOver s) eqn:Hgo.
    + rewrite frame_over by assumption. split; [lia|auto].
    + destruct (frame_active time x s HI Hgo) as [Hsc _].
      cbv zeta in Hsc. rewrite Hsc. split; [lia|discriminate].
  - simpl. destruct (cursors s); (split; [simpl; lia|auto]).
  - simpl. rewrite (inv_paused s HI).
    destruct (gameOver s) eqn:Hgo; (split; [simpl; lia|auto]).
    discriminate.
  - simpl. rewrite (inv_paused s HI).
    destruct (gameOver s) eqn:Hgo; [split; [lia|auto]|].
    destruct (find (hasId j) (entries s)) as [a|].
    + destruct (catchApple_fields a s) as [-> _]. split; [lia|discriminate].
    + split; [lia|congruence].
Qed.

Lemma score_session (evs : list Event) (s : t) :
  Inv s -> session evs = true ->
  score s <= score (run evs s) /\
  (gameOver s = true ->
   score (run evs s) = score s /\ gameOver (run evs s) = true).
Proof.
  revert s. induction evs as [|e evs IH]; intros s HI Hs; simpl.
  - split; [lia|auto].
  - simpl in Hs. apply andb_true_iff in Hs. destruct Hs as [He Hs].
    apply negb_true_iff in He.
    destruct (score_fire e s HI He) as [Hle Hov].
    destruct (IH (fire e s) (Inv_fire e s HI) Hs) as [Hle' Hov'].
    split; [lia|].
    intro Hgo. destruct (Hov Hgo) as [E1 E2].
    destruct (Hov' E2) as [E3 E4]. split; [congruence|exact E4].
Qed.

(** C2. Within a session (frames, catches, key and physics events, no
    restart) the score never decreases, and from a scene whose [gameOver]
    is true it does not change at all, [gameOver] staying true. *)
Theorem score_monotone_then_frozen (data : GameData.t)
    (evs evs' : list Event) :
  session evs' = true ->
  let s := run evs (started data) in
  let s' := run evs' s in
  score s <= score s' /\
  (gameOver s = true -> score s' = score s /\ gameOver s' = true).
Proof.
  intros Hs s s'. apply score_session; [apply Inv_reachable|exact Hs].
Qed.

Lemma score_monotone_then_frozen_witness :
  session [Frame 5000%Q 200; Overlap 1; Keys true false; Physics drop false] = true /\
  gameOver missed = true /\
  let s' :=
    run [Frame 5000%Q 200; Overlap 1; Keys true false; Physics drop false] missed in
  score missed <= score s' /\ score s' = score missed /\ gameOver s' = true.
Proof.
  split; [reflexivity|]. split; [reflexivity|].
  pose proof (score_monotone_then_frozen data0
                [Frame 1501%Q 400; Physics drop false; Frame 1600%Q 3]
                [Frame 5000%Q 200; Overlap 1; Keys true false; Physics drop false]
                eq_refl) as H.
  cbv zeta in *. destruct H as [H1 H2].
  split; [exact H1|]. apply H2. reflexivity.
Defined.

Lemma transitions_active (l : list Sprite.t) (s : t) :
  gameOver s = false ->
  transitions s l = if fallen l then 1%nat else 0%nat.
Proof.
  revert s. induction l as [|a l IH]; intros s Hgo; simpl; [reflexivity|].
  rewrite Hgo. unfold checkApple.
  destruct (Qgtb (Sprite.y a) 600) eqn:Ea; simpl.
  - rewrite endGame_gameOver. simpl.
    rewrite transitions_over by apply endGame_gameOver. reflexivity.
  - rewrite Hgo. simpl. now apply IH.
Qed.

(** C5. On a frame of an active game, [gameOver] becomes true exactly
    when some apple of the group is below the bottom edge (y > 600), so on
    that frame and on none before it.  However many apples are below the
    edge, the [forEach] takes the scene from active to over at most once
    (once if some apple fell, never otherwise), and its result is that of
    a single [endGame]. *)
Theorem gameOver_exactly_when_apple_fell (data : GameData.t)
    (evs : list Event) (time : Q) (x : Z) :
  let s := run evs (started data) in
  gameOver s = false ->
  let mid := beforeCheck time x s in
  exists s',
    update time x s = Done s' /\
    (gameOver s' = true <->
     exists a, In a (entries s) /\ (600 < Sprite.y a)%Q) /\
    s' = fold_left checkApple (entries mid) mid /\
    s' = (if fallen (entries s) then endGame mid else mid) /\
    (transitions mid (entries mid) <= 1)%nat /\
    transitions mid (entries mid) =
      (if fallen (entries s) then 1%nat else 0%nat).
Proof.
  intros s Hgo mid.
  pose proof (Inv_reachable data evs) as HI. fold s in HI.
  destruct (frame_active_closed time x s HI Hgo)
    as [p [keys [Hp [Hk [Hu Hmid]]]]].
  fold mid in Hmid.
  destruct (frame_active time x s HI Hgo) as [_ [_ [He [_ [_ Hov]]]]].
  cbn [fire] in He, Hov. rewrite Hu in He, Hov. cbn [state] in He, Hov.
  assert (Hmgo : gameOver mid = false).
  { rewrite Hmid. unfold afterSpawn.
    destruct s as [pl ap cu sc go gd la ai pp tw ni]; scene.
    destruct (due time _); exact Hgo. }
  assert (Hme : fallen (entries mid) = fallen (entries s)).
  { rewrite Hmid. unfold afterSpawn.
    destruct s as [pl ap cu sc go gd la ai pp tw ni]; scene.
    destruct (due time _); scene; [|reflexivity].
    rewrite fallen_app. simpl. apply orb_false_r. }
  exists (afterFrame time x p keys s). repeat split.
  - exact Hu.
  - intro H. apply fallen_true. congruence.
  - intro H. apply fallen_true in H. congruence.
  - rewrite forEach_checkApple, Hme. unfold afterFrame. now rewrite Hmid.
  - unfold afterFrame. now rewrite Hmid.
  - apply transitions_le_1.
  - rewrite transitions_active by exact Hmgo. now rewrite Hme.
Qed.

Lemma gameOver_exactly_when_apple_fell_witness :
  let s := run twoFallen (started data0) in
  gameOver s = false /\
  List.length (filter (fun a => Qgtb (Sprite.y a) 600%Q) (entries s)) = 2%nat /\
  exists s',
    update 3100%Q 9 s = Done s' /\ gameOver s' = true /\
    transitions (beforeCheck 3100%Q 9 s)
      (entries (beforeCheck 3100%Q 9 s)) = 1%nat.
Proof.
  cbv zeta. split; [reflexivity|]. split; [reflexivity|].
  destruct (gameOver_exactly_when_apple_fell data0 twoFallen 3100%Q 9 eq_refl)
    as [s' [Hu [Hov [_ [_ [_ Ht]]]]]].
  exists s'. split; [exact Hu|]. split; [|exact Ht].
  apply Hov. exists fallenApple. split; [|reflexivity].
  apply (nth_error_In (entries (run twoFallen (started data0))) 0).
  exact (eq_refl (Some fallenApple)).
Defined.

Lemma find_absent (i : nat) (l : list Sprite.t) :
  (forall b, In b l -> Sprite.id b <> i) -> find (hasId i) l = None.
Proof.
  induction l as [|b l IH]; simpl; intro H; [reflexivity|].
  unfold hasId at 1. destruct (Nat.eqb_spec (Sprite.id b) i) as [E|E].
  - exfalso. apply (H b); auto.
  - apply IH. intros c Hc. apply H. now right.
Qed.

(** C6. An apple of the group that the collider reports while the game
    is active is handed to [catchApple], which removes exactly that apple
    and adds exactly 1 to the score.  Whatever happens afterwards, no
    sprite with that identity is in the group again, so the collider has
    nothing to report for it and the apple is not counted twice. *)
Theorem catchApple_removes_and_counts_once (data : GameData.t)
    (evs evs' : list Event) (a : Sprite.t) :
  let s := run evs (started data) in
  gameOver s = false -> In a (entries s) ->
  let s' := catchApple a s in
  fire (Overlap (Sprite.id a)) s = s' /\
  score s' = score s + 1 /\
  entries s' = destroy a (entries s) /\
  S (List.length (entries s')) = List.length (entries s) /\
  (forall b, In b (entries s') <->
             In b (entries s) /\ Sprite.id b <> Sprite.id a) /\
  let s'' := run evs' s' in
  (forall b, In b (entries s'') -> Sprite.id b <> Sprite.id a) /\
  fire (Overlap (Sprite.id a)) s'' = s''.
Proof.
  intros s Hgo Hin s'.
  pose proof (Inv_reachable data evs) as HI. fold s in HI.
  destruct (catchApple_fields a s) as [Hsc [_ [He [Hn _]]]].
  fold s' in Hsc, He, Hn.
  assert (Hgone : forall b, In b (entries (run evs' s')) ->
                            Sprite.id b <> Sprite.id a).
  { assert (HT : tracked (Sprite.id a) (fun _ => False) (run evs' s')).
    { apply tracked_run; [trivial|now apply Inv_catchApple|].
      split.
      - rewrite Hn. now apply (inv_fresh s HI).
      - rewrite He. intros b Hb Hid. apply ids_destroy_subset in Hb. tauto. }
    intros b Hb Hid. exact (proj2 HT b Hb Hid). }
  repeat split.
  - simpl. rewrite (inv_paused s HI), Hgo.
    now rewrite (find_by_id (entries s) a (inv_ids s HI) Hin).
  - exact Hsc.
  - exact He.
  - rewrite He. apply destroy_length; [apply (inv_ids s HI)|exact Hin].
  - rewrite He in H. now apply ids_destroy_subset in H.
  - rewrite He in H. now apply ids_destroy_subset in H.
  - intros [Hb Hne]. rewrite He. unfold destroy. apply filter_In.
    split; trivial. now apply negb_true_iff, Nat.eqb_neq.
  - exact Hgone.
  - simpl. rewrite (find_absent _ _ Hgone).
    destruct (physicsPaused _); reflexivity.
Qed.

Lemma catchApple_removes_and_counts_once_witness :
  let s := run [Frame 1501%Q 400] (started data0) in
  gameOver s = false /\ In firstApple (entries s) /\
  let s' := catchApple firstApple s in
  score s' = 1 /\ entries s' = [] /\
  let s'' := run [Frame 3000%Q 77; Overlap 1; Overlap 2] s' in
  score s'' = 2 /\
  (forall b, In b (entries s'') -> Sprite.id b <> 1%nat).
Proof.
  assert (Hin : In firstApple
                   (entries (run [Frame 1501%Q 400] (started data0)))).
  { apply (nth_error_In _ 0). exact (eq_refl (Some firstApple)). }
  cbv zeta. split; [reflexivity|]. split; [exact Hin|].
  destruct (catchApple_removes_and_counts_once data0 [Frame 1501%Q 400]
              [Frame 3000%Q 77; Overlap 1; Overlap 2] firstApple eq_refl Hin)
    as [_ [_ [_ [_ [_ [Hgone _]]]]]].
  split; [reflexivity|]. split; [reflexivity|]. split; [reflexivity|].
  exact Hgone.
Defined.

(** C7, not met by the code.  [spawnApple] does set the vertical speed
    150 + score * 2 on the new sprite, but it then adds the sprite to the
    physics group, and the group's defaults put the velocity back to 0.
    In every reachable scene the apple that ends up in the group has
    vertical speed 0, which is never 150 + score * 2. *)
Theorem spawnApple_speed_reset_by_group (data : GameData.t)
    (evs : list Event) (x : Z) :
  let s := run evs (started data) in
  exists a,
    spawnApple x s =
      Done (set_apples (Some (entries s ++ [a]))
              (set_nextId (S (nextId s)) s)) /\
    Sprite.velocityY a = 0 /\
    Sprite.velocityY a <> 150 + score s * 2.
Proof.
  intro s. pose proof (Inv_reachable data evs) as HI. fold s in HI.
  clearbody s. destruct (inv_apples s HI) as [l Hl].
  exists (spawned x s). repeat split.
  - rewrite (spawnApple_spec x s l Hl). unfold entries. now rewrite Hl.
  - pose proof (inv_score s HI). cbn [spawned Sprite.velocityY]. lia.
Qed.




(** * Further properties of the code *)

(** ** Auxiliary facts *)

Lemma reachable_ind (P : t -> Prop) (data : GameData.t) :
  P (started data) ->
  (forall e s, Inv s -> P s -> P (fire e s)) ->
  forall evs, P (run evs (started data)).
Proof.
  intros H0 Hstep evs.
  assert (G : forall evs s, Inv s -> P s -> P (run evs s)).
  { clear evs. induction evs as [|e evs IH]; intros s HI HP; simpl; trivial.
    apply IH; [now apply Inv_fire|now apply Hstep]. }
  apply G; [apply Inv_started|exact H0].
Qed.

Lemma keys_fields (l r : bool) (s : t) :
  let s' := fire (Keys l r) s in
  score s' = score s /\ entries s' = entries s /\
  gameOver s' = gameOver s /\ appleInterval s' = appleInterval s /\
  lastAppleTime s' = lastAppleTime s /\ plate s' = plate s.
Proof. simpl. destruct (cursors s); repeat split; reflexivity. Qed.

Lemma physics_fields (move : Sprite.t -> Q * Q) (blocked : bool) (s : t) :
  let s' := fire (Physics move blocked) s in
  score s' = score s /\
  entries s' =
    (if physicsPaused s then entries s
     else map (moveSprite move) (entries s)) /\
  gameOver s' = gameOver s /\ appleInterval s' = appleInterval s /\
  lastAppleTime s' = lastAppleTime s.
Proof.
  simpl. destruct (physicsPaused s); [repeat split; reflexivity|].
  destruct s as [pl [l|] cu sc go gd la ai pp tw ni];
    repeat split; reflexivity.
Qed.

Lemma overlap_fields (j : nat) (s : t) :
  Inv s ->
  let s' := fire (Overlap j) s in
  s' = s \/
  exists a, In a (entries s) /\ gameOver s = false /\ s' = catchApple a s.
Proof.
  intro HI. simpl. rewrite (inv_paused s HI).
  destruct (gameOver s); [now left|].
  destruct (find (hasId j) (entries s)) as [a|] eqn:F; [|now left].
  right. exists a. apply find_some in F. tauto.
Qed.

Lemma due_false (time : Q) (s : t) :
  (time - lastAppleTime s <= inject_Z (appleInterval s))%Q ->
  due time s = false.
Proof.
  intro H. unfold due, Qgtb. apply negb_false_iff. now apply Qle_bool_iff.
Qed.

(** ** The scene *)

(** X1. On every scene reachable from start the shared snapshot holds the
    scene's current score and game-over flag, whatever values the
    component's object had when it was handed to [init]. *)
Theorem snapshot_in_sync (data : GameData.t) (evs : list Event) :
  let s := run evs (started data) in
  gameData s = Some (GameData.mk (score s) (gameOver s)).
Proof. apply inv_gameData, Inv_reachable. Qed.

(** X2. On every reachable scene the physics world is paused exactly when
    the game is over: [endGame] pauses it, [restart] resumes it, and
    nothing else touches it. *)
Theorem physics_paused_iff_over (data : GameData.t) (evs : list Event) :
  let s := run evs (started data) in
  physicsPaused s = gameOver s.
Proof. apply inv_paused, Inv_reachable. Qed.

(** X3. Once [create] has run, the non-null assertions of [update] and
    [restart] never fail: on every reachable scene both run to their end. *)
Theorem started_scene_never_throws (data : GameData.t) (evs : list Event)
    (time : Q) (x : Z) :
  let s := run evs (started data) in
  (exists s', update time x s = Done s') /\
  (exists s', restart s = Done s').
Proof.
  intro s. pose proof (Inv_reachable data evs) as HI. fold s in HI.
  clearbody s. split.
  - destruct (gameOver s) eqn:Hgo.
    + exists s. unfold update. now rewrite Hgo.
    + destruct (frame_active_closed time x s HI Hgo)
        as [p [keys [_ [_ [Hu _]]]]].
      eexists. exact Hu.
  - eexists. now apply restart_started.
Qed.

Lemma frame_entries (time : Q) (x : Z) (s : t) :
  Inv s ->
  entries (fire (Frame time x) s) =
  entries s ++
    (if negb (gameOver s) && due time s then [spawned x s] else []).
Proof.
  intro HI. destruct (gameOver s) eqn:Hgo.
  - rewrite frame_over by assumption. simpl. now rewrite app_nil_r.
  - destruct (frame_active time x s HI Hgo) as [_ [_ [He _]]].
    rewrite He. simpl. destruct (due time s); [reflexivity|].
    now rewrite app_nil_r.
Qed.

(** X4. A frame never takes an apple out of the group and adds at most
    one: the group after the frame is the group before it, followed by
    the new apple when the game is active and an apple is due.  So an
    apple that is missed stays in the group, and a long gap between two
    frames is not made up for by a burst of apples. *)
Theorem frame_keeps_apples_adds_at_most_one (data : GameData.t)
    (evs : list Event) (time : Q) (x : Z) :
  let s := run evs (started data) in
  entries (fire (Frame time x) s) =
  entries s ++
    (if negb (gameOver s) && due time s then [spawned x s] else []).
Proof. intro s. apply frame_entries, Inv_reachable. Qed.

(** X5. The spawn test is strict.  On a frame whose clock value is at most
    [appleInterval] past [lastAppleTime] (equality included) nothing is
    spawned, and [lastAppleTime], [appleInterval] and the score stay. *)
Theorem frame_not_due_spawns_nothing (data : GameData.t) (evs : list Event)
    (time : Q) (x : Z) :
  let s := run evs (started data) in
  (time - lastAppleTime s <= inject_Z (appleInterval s))%Q ->
  let s' := fire (Frame time x) s in
  entries s' = entries s /\
  lastAppleTime s' = lastAppleTime s /\
  appleInterval s' = appleInterval s /\
  score s' = score s.
Proof.
  intros s Hle s'. pose proof (Inv_reachable data evs) as HI. fold s in HI.
  clearbody s. subst s'. pose proof (due_false time s Hle) as Hd.
  destruct (gameOver s) eqn:Hgo.
  - rewrite frame_over by assumption. repeat split; reflexivity.
  - destruct (frame_active time x s HI Hgo)
      as [Hsc [Hi [He [_ [Hl _]]]]].
    rewrite Hd in *. simpl in Hi. repeat split; assumption.
Qed.

Lemma frame_not_due_spawns_nothing_witness :
  let s := run [Frame 1501%Q 400] (started data0) in
  (2991 - lastAppleTime s <= inject_Z (appleInterval s))%Q /\
  entries (fire (Frame 2991%Q 7) s) = entries s /\
  lastAppleTime (fire (Frame 2991%Q 7) s) = lastAppleTime s.
Proof.
  cbv zeta.
  assert (H : (2991 - lastAppleTime (run [Frame 1501%Q 400] (started data0))
               <= inject_Z
                    (appleInterval (run [Frame 1501%Q 400] (started data0))))%Q).
  { discriminate. }
  split; [exact H|].
  destruct (frame_not_due_spawns_nothing data0 [Frame 1501%Q 400] 2991%Q 7 H)
    as [He [Hl _]].
  split; [exact He|exact Hl].
Defined.

Lemma due_gap (time : Q) (s : t) :
  Inv s -> due time s = true -> (lastAppleTime s + 500 < time)%Q.
Proof.
  intros HI Hd. apply Qgtb_true in Hd.
  destruct (inv_interval s HI) as [k [Hk Hai]].
  assert (H5 : (500 <= inject_Z (appleInterval s))%Q).
  { change 500%Q with (inject_Z 500). rewrite <- Zle_Qle. lia. }
  set (q := inject_Z (appleInterval s)) in *. lra.
Qed.

Lemma lastAppleTime_fire (e : Event) (s : t) :
  Inv s -> isRestart e = false ->
  (lastAppleTime s <= lastAppleTime (fire e s))%Q.
Proof.
  intros HI He. destruct e as [time x|l r|move blocked|j|]; try discriminate.
  - destruct (gameOver s) eqn:Hgo.
    + rewrite frame_over by assumption. apply Qle_refl.
    + destruct (frame_active time x s HI Hgo) as [_ [_ [_ [_ [-> _]]]]].
      destruct (due time s) eqn:Hd; [|apply Qle_refl].
      pose proof (due_gap time s HI Hd). lra.
  - destruct (keys_fields l r s) as (_ & _ & _ & _ & -> & _).
    apply Qle_refl.
  - destruct (physics_fields move blocked s) as (_ & _ & _ & _ & ->).
    apply Qle_refl.
  - destruct (overlap_fields j s HI) as [->|[a [_ [_ ->]]]];
      [apply Qle_refl|].
    destruct (catchApple_fields a s) as (_ & _ & _ & _ & _ & _ & -> & _).
    apply Qle_refl.
Qed.

Lemma lastAppleTime_session (evs : list Event) (s : t) :
  Inv s -> session evs = true ->
  (lastAppleTime s <= lastAppleTime (run evs s))%Q.
Proof.
  revert s. induction evs as [|e evs IH]; intros s HI Hs; simpl;
    [apply Qle_refl|].
  simpl in Hs. apply andb_true_iff in Hs. destruct Hs as [He Hs].
  apply negb_true_iff in He.
  apply Qle_trans with (y := lastAppleTime (fire e s)).
  - now apply lastAppleTime_fire.
  - apply IH; [now apply Inv_fire|exact Hs].
Qed.

Lemma frame_adds_only_if_due (time : Q) (x : Z) (s : t) :
  Inv s ->
  List.length (entries (fire (Frame time x) s)) = S (List.length (entries s)) ->
  gameOver s = false /\ due time s = true.
Proof.
  intros HI Hlen. rewrite (frame_entries time x s HI), length_app in Hlen.
  destruct (gameOver s); [simpl in Hlen; lia|].
  destruct (due time s); [now split|simpl in Hlen; lia].
Qed.

(** X6. Within a run without a restart, apples are never spawned less
    than half a second apart: of two frames that each add an apple, the
    later has a clock value more than 500 above the earlier.  ([restart]
    puts [lastAppleTime] back to 0, so across a restart there is no such
    gap.) *)
Theorem spawns_more_than_500_apart (data : GameData.t)
    (evs evs' : list Event) (t1 t2 : Q) (x1 x2 : Z) :
  session evs' = true ->
  let s := run evs (started data) in
  let s1 := fire (Frame t1 x1) s in
  let s2 := run evs' s1 in
  let s3 := fire (Frame t2 x2) s2 in
  List.length (entries s1) = S (List.length (entries s)) ->
  List.length (entries s3) = S (List.length (entries s2)) ->
  (500 < t2 - t1)%Q.
Proof.
  intros Hs s s1 s2 s3 H1 H3.
  pose proof (Inv_reachable data evs) as HI. fold s in HI. clearbody s.
  assert (HI1 : Inv s1) by now apply Inv_fire.
  assert (HI2 : Inv s2) by now apply Inv_run.
  destruct (frame_adds_only_if_due t1 x1 s HI H1) as [Hgo Hd].
  destruct (frame_active t1 x1 s HI Hgo) as [_ [_ [_ [_ [Hl _]]]]].
  rewrite Hd in Hl. fold s1 in Hl.
  destruct (frame_adds_only_if_due t2 x2 s2 HI2 H3) as [_ Hd2].
  pose proof (due_gap t2 s2 HI2 Hd2) as Hgap.
  pose proof (lastAppleTime_session evs' s1 HI1 Hs) as Hmono.
  fold s2 in Hmono. rewrite Hl in Hmono. lra.
Qed.

Lemma spawns_more_than_500_apart_witness :
  session [Keys true false; Frame 2000%Q 9] = true /\
  let s := run [Keys false false] (started data0) in
  let s1 := fire (Frame 1501%Q 400) s in
  let s2 := run [Keys true false; Frame 2000%Q 9] s1 in
  let s3 := fire (Frame 3000%Q 200) s2 in
  List.length (entries s1) = S (List.length (entries s)) /\
  List.length (entries s3) = S (List.length (entries s2)) /\
  (500 < 3000 - 1501)%Q.
Proof.
  cbv zeta. split; [reflexivity|]. split; [reflexivity|].
  split; [reflexivity|].
  apply (spawns_more_than_500_apart data0 [Keys false false]
           [Keys true false; Frame 2000%Q 9] 1501%Q 3000%Q 400 200);
    reflexivity.
Defined.

(** X7. The difficulty ramp in closed form.  On every reachable scene the
    spawn interval is 1500 less 10 for every apple spawned since the last
    (re)start, caught or still in the group, and never less than 500:
    [appleInterval = max 500 (1500 - 10 * (score + number of apples))].
    In particular every apple spawned since then is either counted in the
    score or still in the group. *)
Theorem appleInterval_closed_form (data : GameData.t) (evs : list Event) :
  let s := run evs (started data) in
  appleInterval s =
  Z.max 500 (1500 - 10 * (score s + Z.of_nat (List.length (entries s)))).
Proof.
  cbv zeta. apply reachable_ind; [reflexivity|].
  intros e s HI IH. destruct e as [time x|l r|move blocked|j|].
  - rewrite (interval_fire _ s HI), (frame_entries time x s HI), length_app.
    destruct (gameOver s) eqn:Hgo.
    + rewrite frame_over by assumption. cbn [negb andb List.length]. lia.
    + destruct (frame_active time x s HI Hgo) as [-> _].
      pose proof (inv_score s HI) as Hs.
      cbn [negb andb]. destruct (due time s); cbn [andb List.length]; [|lia].
      destruct (appleInterval s >? 500) eqn:E.
      * apply Z.gtb_lt in E. lia.
      * rewrite Z.gtb_ltb in E. apply Z.ltb_ge in E. lia.
  - destruct (keys_fields l r s) as [-> [-> [_ [-> _]]]]. exact IH.
  - destruct (physics_fields move blocked s) as [-> [-> [_ [-> _]]]].
    destruct (physicsPaused s); [exact IH|]. now rewrite length_map.
  - destruct (overlap_fields j s HI) as [->|[a [Hin [_ ->]]]]; [exact IH|].
    destruct (catchApple_fields a s) as [-> [_ [-> [_ [_ [-> _]]]]]].
    pose proof (destroy_length (entries s) a (inv_ids s HI) Hin). lia.
  - cbn [fire]. rewrite (restart_started s HI). reflexivity.
Qed.

(** X8. The game is only ever over because of a miss: on every reachable
    scene with [gameOver] true some apple of the group is below the bottom
    edge (y > 600).  The missed apple is still there, since neither
    [update] nor [endGame] removes it and the paused world does not move
    it. *)
Theorem over_only_by_a_miss (data : GameData.t) (evs : list Event) :
  let s := run evs (started data) in
  gameOver s = true ->
  exists a, In a (entries s) /\ (600 < Sprite.y a)%Q.
Proof.
  cbv zeta. intro H. apply fallen_true. revert H.
  apply reachable_ind with
    (P := fun s => gameOver s = true -> fallen (entries s) = true);
    [discriminate|].
  intros e s HI IH. destruct e as [time x|l r|move blocked|j|].
  - destruct (gameOver s) eqn:Hgo.
    + rewrite frame_over by assumption. rewrite Hgo. exact IH.
    + destruct (frame_active time x s HI Hgo) as [_ [_ [_ [_ [_ ->]]]]].
      rewrite (frame_entries time x s HI), fallen_app. intros ->. reflexivity.
  - destruct (keys_fields l r s) as [_ [-> [-> _]]]. exact IH.
  - destruct (physics_fields move blocked s) as [_ [-> [-> _]]].
    rewrite (inv_paused s HI). destruct (gameOver s); auto. discriminate.
  - destruct (overlap_fields j s HI) as [->|[a [_ [Hgo ->]]]]; [exact IH|].
    destruct (catchApple_fields a s) as [_ [_ [_ [_ [-> _]]]]]. congruence.
  - cbn [fire]. rewrite (restart_started s HI). discriminate.
Qed.

Lemma over_only_by_a_miss_witness :
  gameOver missed = true /\
  exists a, In a (entries missed) /\ (600 < Sprite.y a)%Q.
Proof.
  split; [reflexivity|].
  apply (over_only_by_a_miss data0
           [Frame 1501%Q 400; Physics drop false; Frame 1600%Q 3]).
  reflexivity.
Defined.

(** X9. The score is never negative, and every apple in the group is
    at rest: its velocity is (0, 0) on every reachable scene.  The speed
    [spawnApple] sets is lost when the apple joins the physics group, and
    nothing gives the apple another. *)
Theorem apples_in_group_at_rest (data : GameData.t) (evs : list Event) :
  let s := run evs (started data) in
  0 <= score s /\
  forall a, In a (entries s) ->
            Sprite.velocityX a = 0 /\ Sprite.velocityY a = 0.
Proof.
  cbv zeta. split; [apply inv_score, Inv_reachable|].
  apply reachable_ind with
    (P := fun s => forall a, In a (entries s) ->
                     Sprite.velocityX a = 0 /\ Sprite.velocityY a = 0);
    [intros a []|].
  intros e s HI IH. destruct e as [time x|l r|move blocked|j|].
  - rewrite (frame_entries time x s HI).
    intros a Ha. apply in_app_or in Ha. destruct Ha as [Ha|Ha]; auto.
    destruct (negb (gameOver s) && due time s); [|destruct Ha].
    destruct Ha as [<-|[]]. split; reflexivity.
  - destruct (keys_fields l r s) as [_ [-> _]]. exact IH.
  - destruct (physics_fields move blocked s) as [_ [-> _]].
    destruct (physicsPaused s); [exact IH|].
    intros a Ha. apply in_map_iff in Ha. destruct Ha as [b [<- Hb]].
    apply (IH b Hb).
  - destruct (overlap_fields j s HI) as [->|[a [_ [_ ->]]]]; [exact IH|].
    destruct (catchApple_fields a s) as [_ [_ [-> _]]].
    intros b Hb. apply ids_destroy_subset in Hb. apply (IH b (proj1 Hb)).
  - cbn [fire]. rewrite (restart_started s HI). intros a [].
Qed.



(** X11. Before [create] has run (no apples group, no cursor keys) the
    methods fail on their non-null assertions: [restart] throws once it
    reaches the group, after it has already reset score, [gameOver],
    [lastAppleTime] and [appleInterval] and without syncing the snapshot;
    [update] of a game that is not over throws at the first key read and
    changes nothing; [spawnApple] throws when it adds to the group. *)
Theorem methods_before_create_throw (s : t) (time : Q) (x : Z) :
  apples s = None -> cursors s = None -> gameOver s = false ->
  restart s =
    TypeError (mk (plate s) None None 0 false (gameData s) 0%Q 1500
                 (physicsPaused s) (tweens s) (nextId s)) /\
  update time x s = TypeError s /\
  spawnApple x s = TypeError (set_nextId (S (nextId s)) s).
Proof.
  destruct s as [pl ap cu sc go gd la ai pp tw ni]; scene.
  intros -> -> ->. repeat split; reflexivity.
Qed.

Lemma methods_before_create_throw_witness :
  let s := init data0 new in
  apples s = None /\ cursors s = None /\ gameOver s = false /\
  restart s = TypeError s /\ update 16%Q 400 s = TypeError s.
Proof.
  cbv zeta.
  destruct (methods_before_create_throw (init data0 new) 16%Q 400
              eq_refl eq_refl eq_refl) as [Hr [Hu _]].
  repeat split; trivial.
Defined.

Lemma destroy_comm (a b : Sprite.t) (l : list Sprite.t) :
  destroy a (destroy b l) = destroy b (destroy a l).
Proof.
  unfold destroy. induction l as [|c l IH]; simpl; [reflexivity|].
  destruct (negb (Sprite.id c =? Sprite.id b)%nat) eqn:Eb;
    destruct (negb (Sprite.id c =? Sprite.id a)%nat) eqn:Ea;
    simpl; rewrite ?Ea, ?Eb; congruence.
Qed.

(** X12. Catches commute: when the collider reports two apples, the scene
    that results does not depend on the order of the two [catchApple]
    calls. *)
Theorem catchApple_commutes (a b : Sprite.t) (s : t) :
  catchApple a (catchApple b s) = catchApple b (catchApple a s).
Proof.
  destruct s as [pl [l|] cu sc go [gd|] la ai pp tw ni];
    unfold catchApple, updateGameState; scene;
    rewrite ?(destroy_comm a b); reflexivity.
Qed.

(** X13. A game over leaves no trace once the game is restarted: from any
    reachable scene, [restart] after [endGame] gives the same scene as
    [restart] alone. *)
Theorem restart_forgets_game_over (data : GameData.t) (evs : list Event) :
  let s := run evs (started data) in
  restart (endGame s) = restart s.
Proof.
  intro s. pose proof (Inv_reachable data evs) as HI. fold s in HI.
  clearbody s.
  rewrite (restart_started s HI), (restart_started _ (Inv_endGame s HI)).
  destruct s as [pl ap cu sc go [gd|] la ai pp tw ni]; reflexivity.
Qed.

Lemma over_step_frozen (e : Event) (s : t) (c : option CursorKeys) :
  Inv s -> gameOver s = true -> isRestart e = false ->
  set_cursors c (fire e s) = set_cursors c s /\ gameOver (fire e s) = true.
Proof.
  intros HI Hgo He. destruct e as [time x|l r|move blocked|j|]; try discriminate.
  - rewrite frame_over by assumption. now split.
  - simpl. destruct (cursors s); [|now split].
    destruct s; split; [reflexivity|exact Hgo].
  - simpl. rewrite (inv_paused s HI), Hgo. now split.
  - simpl. rewrite (inv_paused s HI), Hgo. now split.
Qed.

Lemma over_run_frozen (evs : list Event) (s : t) (c : option CursorKeys) :
  Inv s -> gameOver s = true -> session evs = true ->
  set_cursors c (run evs s) = set_cursors c s.
Proof.
  revert s. induction evs as [|e evs IH]; intros s HI Hgo Hs; simpl;
    [reflexivity|].
  simpl in Hs. apply andb_true_iff in Hs. destruct Hs as [He Hs].
  apply negb_true_iff in He.
  destruct (over_step_frozen e s c HI Hgo He) as [E1 E2].
  rewrite IH; trivial. now apply Inv_fire.
Qed.

(** X14. A finished game is a frozen world.  From a reachable scene with
    [gameOver] true, no run of frames, key events, physics steps and
    overlap reports changes anything but the recorded key state: apples,
    plate, score, spawn clock, interval and snapshot all stay exactly as
    they were until [restart] is called. *)
Theorem over_scene_is_frozen (data : GameData.t) (evs evs' : list Event) :
  session evs' = true ->
  let s := run evs (started data) in
  gameOver s = true ->
  set_cursors (cursors s) (run evs' s) = s.
Proof.
  intros Hs s Hgo. pose proof (Inv_reachable data evs) as HI. fold s in HI.
  clearbody s. rewrite (over_run_frozen evs' s _ HI Hgo Hs).
  destruct s; reflexivity.
Qed.

Lemma over_scene_is_frozen_witness :
  session [Keys true false; Frame 5000%Q 200; Physics drop false; Overlap 1] = true /\
  gameOver missed = true /\
  set_cursors (cursors missed)
    (run [Keys true false; Frame 5000%Q 200; Physics drop false; Overlap 1]
       (run [Frame 1501%Q 400; Physics drop false; Frame 1600%Q 3] (started data0)))
  = run [Frame 1501%Q 400; Physics drop false; Frame 1600%Q 3] (started data0).
Proof.
  split; [reflexivity|]. split; [reflexivity|].
  apply (over_scene_is_frozen data0
           [Frame 1501%Q 400; Physics drop false; Frame 1600%Q 3]
           [Keys true false; Frame 5000%Q 200; Physics drop false; Overlap 1]);
    reflexivity.
Defined.

(** ** The component *)

Import Component.

(** X15. The component never gets hold of the scene, so a poll never
    copies anything.  From the first render, after any sequence of button
    clicks, effect runs, interval ticks and cleanups, [sceneRef.current]
    is null, the React score is 0 and [gameOver] false: the score card, if
    shown, shows 0, and the game-over modal is never rendered, whatever
    the scene does. *)
Theorem component_never_sees_the_scene (evs : list UiEvent) :
  let sh := runUi evs Shell.initial in
  Shell.sceneRef sh = None /\
  Shell.score sh = 0 /\ Shell.gameOver sh = false /\
  gameOverModal (render sh) = None /\
  gameUI (render sh) = (if Shell.gameStarted sh then Some 0 else None).
Proof.
  cbv zeta.
  assert (G : forall evs sh,
             Shell.sceneRef sh = None /\ Shell.score sh = 0 /\
             Shell.gameOver sh = false ->
             Shell.sceneRef (runUi evs sh) = None /\
             Shell.score (runUi evs sh) = 0 /\
             Shell.gameOver (runUi evs sh) = false).
  { clear evs. induction evs as [|e evs IH]; intros sh H; simpl; trivial.
    apply IH. destruct sh as [sc go gs pg sr]. simpl in H.
    destruct H as (-> & -> & ->).
    destruct e as [| | |object|]; destruct gs, pg;
      repeat split; reflexivity. }
  destruct (G evs Shell.initial) as (Hr & Hs & Hg);
    [repeat split; reflexivity|].
  repeat split; trivial; unfold render; cbn [gameOverModal gameUI];
    rewrite ?Hg, ?Hs; reflexivity.
Qed.

(** X17. What is on screen.  The start overlay is rendered exactly when
    neither the game UI nor the game-over modal is.  After [startGame]
    (however it ends), and after [gameData.restart] while no scene is
    referenced, the screen is the plain game UI with score 0: no start
    overlay, no modal. *)
Theorem screen_after_commands (sc : Z) (go gs pg : bool) (sh : Shell.t) :
  let plain := mkView false (Some 0) None in
  startScreen (render sh) =
    negb (shown (gameUI (render sh))) &&
    negb (shown (gameOverModal (render sh))) /\
  render (shell (Shell.startGame sh)) = plain /\
  render (shell (Shell.gameData_restart (Shell.mk sc go gs pg None))) = plain.
Proof.
  intro plain. split; [|split].
  - destruct sh as [sc' go' [|] pg' sr]; destruct go'; reflexivity.
  - destruct sh as [sc' go' gs' [|] [scene|]]; unfold Shell.startGame;
      cbn [Shell.score Shell.gameOver Shell.gameStarted Shell.phaserGameRef
           Shell.sceneRef]; try reflexivity.
    destruct (restart scene); reflexivity.
  - reflexivity.
Qed.
